(** * fibhatchery: the memoized Fibonacci service of [app/app.py]

    The service is one recursive function [fib], decorated with
    [functools.lru_cache(maxsize=None)], behind the Flask route
    [/fib/<int:n>] served by [get_fib].

    Python integers are unbounded, so they are [Z].  The decorator keeps a
    dictionary from the argument to the result together with its hit and miss
    counters; that is the only state of the program and it is threaded
    explicitly.  Recursion on [n - 1] and [n - 2] is not structural, so [fib]
    takes the depth of the Python call stack it may use as fuel. *)

From stdpp Require Import gmap strings list fin_maps.

Local Open Scope Z_scope.

(** ** The state of the [lru_cache] decorator *)

Record lru_state : Type := LruState {
  cache : gmap Z Z;
  hits : nat;
  misses : nat
}.

(** The process starts with an empty cache and both counters at zero. *)
Definition init_state : lru_state :=
  {| cache := ∅; hits := 0%nat; misses := 0%nat |}.

Definition hit (s : lru_state) : lru_state :=
  {| cache := cache s; hits := S (hits s); misses := misses s |}.

Definition miss (s : lru_state) : lru_state :=
  {| cache := cache s; hits := hits s; misses := S (misses s) |}.

Definition store (n result : Z) (s : lru_state) : lru_state :=
  {| cache := <[n := result]> (cache s); hits := hits s; misses := misses s |}.

(** A call either runs out of stack ([None]) or returns a value and the new
    state. *)
Definition call (A : Type) : Type := lru_state → option (A * lru_state).

(** The wrapper that [lru_cache(maxsize=None)] puts around a function of one
    integer: look the argument up; on a hit count it and return the stored
    result; on a miss count it, run the function, store what it returned. *)
Definition lru_cache (user_function : Z → call Z) (n : Z) : call Z :=
  fun s =>
    match cache s !! n with
    | Some result => Some (result, hit s)
    | None =>
        '(result, s') ← user_function n (miss s);
        Some (result, store n result s')
    end.

(** The body of [fib]; [self] is the global name [fib], which is bound to the
    decorated function, so both recursive calls go through the cache.  The
    left operand of [+] is evaluated first. *)
Definition fib_body (self : Z → call Z) (n : Z) : call Z :=
  fun s =>
    if n <? 2 then Some (n, s)
    else
      '(a, s1) ← self (n - 1) s;
      '(b, s2) ← self (n - 2) s1;
      Some (a + b, s2).

Fixpoint fib (fuel : nat) : Z → call Z :=
  match fuel with
  | O => fun _ _ => None
  | S fuel' => lru_cache (fib_body (fib fuel'))
  end.

(** ** The request handler *)

Inductive json_value : Type :=
  | JInt (z : Z)
  | JStr (s : string).

(** The body that [jsonify] is given: a dictionary literal, kept in the order
    in which it is written. *)
Definition response : Type := list (string * json_value).

Definition get_fib (fuel : nat) (n : Z) : call (response * Z) :=
  fun s =>
    if n <? 0 then
      Some (([("error", JStr "Please provide a non-negative integer")], 400), s)
    else
      '(result, s') ← fib fuel n s;
      Some (([("n", JInt n); ("fib", JInt result)], 200), s').

(** ** What a call returns, once the stack is deep enough *)

Definition evaluates (n : Z) (s : lru_state) (v : Z) (s' : lru_state) : Prop :=
  ∃ fuel, fib fuel n s = Some (v, s').

(** One completed call, whatever its argument. *)
Definition step (s s' : lru_state) : Prop := ∃ n v, evaluates n s v s'.

(** States the process can be in: any sequence of completed calls of [fib],
    on any integers, from the initial state. *)
Inductive reachable : lru_state → Prop :=
  | reachable_init : reachable init_state
  | reachable_call s n v s' :
      reachable s → evaluates n s v s' → reachable s'.

(** The same, when every call is on a valid index, as the route guarantees. *)
Inductive reachable_valid : lru_state → Prop :=
  | reachable_valid_init : reachable_valid init_state
  | reachable_valid_call s n v s' :
      reachable_valid s → 0 ≤ n → evaluates n s v s' → reachable_valid s'.

(** A state used to exercise the theorems: the process after [fib(3)]. *)
Definition warm_state : lru_state :=
  {| cache := <[3 := 2]> (<[2 := 1]> (<[0 := 0]> (<[1 := 1]> ∅)));
     hits := 1; misses := 4 |}.

(** ** The reference definition of the specification *)

Fixpoint fib_spec (n : nat) : Z :=
  match n with
  | O => 0
  | S m =>
      match m with
      | O => 1
      | S k => fib_spec m + fib_spec k
      end
  end.

(** The reference is never unfolded by [simpl]: it is exponential. *)
Arguments fib_spec : simpl never.

(** The value of [fib] on every integer: the argument itself below 2 (so also
    on negative integers), the Fibonacci number from there on. *)
Definition fib_value (n : Z) : Z :=
  if n <? 2 then n else fib_spec (Z.to_nat n).

(** A cache all of whose entries hold the value of [fib] at their key. *)
Definition cache_ok (s : lru_state) : Prop :=
  ∀ k v, cache s !! k = Some v → v = fib_value k.

(** The outcome of a call in the terms of the evaluator's contract: a value,
    or the [InvalidArgument] condition.  [fib] has no [raise] statement, so a
    call that completes is always [Returned]. *)
Inductive outcome : Type :=
  | Returned (v : Z)
  | InvalidArgument.

Definition outcome_of (r : option (Z * lru_state)) : option outcome :=
  match r with
  | Some (v, _) => Some (Returned v)
  | None => None
  end.

(** ** The other route, and the two routes together *)

(** The number of dictionary lookups the decorator has made so far: every call
    of the decorated function makes one and counts it as a hit or a miss. *)
Definition lookups (s : lru_state) : Z := Z.of_nat (hits s + misses s).

Definition health_check : call (response * Z) :=
  fun s => Some (([("status", JStr "healthy")], 200), s).

(** A request, once its URL has been matched against the two routes. *)
Inductive request : Type :=
  | FibRequest (n : Z)
  | HealthRequest.

Definition handle (fuel : nat) (r : request) : call (response * Z) :=
  match r with
  | FibRequest n => get_fib fuel n
  | HealthRequest => health_check
  end.

(** The requests of a process, served one after the other. *)
Fixpoint serve (fuel : nat) (rs : list request) : call (list (response * Z)) :=
  match rs with
  | [] => fun s => Some ([], s)
  | r :: rs' =>
      fun s =>
        '(x, s1) ← handle fuel r s;
        '(xs, s2) ← serve fuel rs' s1;
        Some (x :: xs, s2)
  end.

Definition is_fib_request (r : request) : bool :=
  match r with
  | FibRequest _ => true
  | HealthRequest => false
  end.

(** The answer to a request that the routes match: [/health], and [/fib/<n>]
    for an [n >= 0] (the [int] converter of the route matches digits only). *)
Definition answer_of (r : request) : response * Z :=
  match r with
  | FibRequest n => ([("n", JInt n); ("fib", JInt (fib_spec (Z.to_nat n)))], 200)
  | HealthRequest => ([("status", JStr "healthy")], 200)
  end.

(** The process after a direct call [fib(-5)]. *)
Definition negative_call_state : lru_state := store (-5) (-5) (miss init_state).

(** The answers given to the [/fib] requests among [rs]. *)
Fixpoint fib_answers {A : Type} (rs : list request) (xs : list A) : list A :=
  match rs, xs with
  | r :: rs', x :: xs' =>
      if is_fib_request r then x :: fib_answers rs' xs' else fib_answers rs' xs'
  | _, _ => []
  end.

(** A cache in which an index from 2 on is only present together with the
    two indices below it. *)
Definition closed_below (s : lru_state) : Prop :=
  ∀ k, 2 ≤ k → is_Some (cache s !! k) →
       is_Some (cache s !! (k - 1)) ∧ is_Some (cache s !! (k - 2)).

(** * The provisioning script [fibfactory.py]

    The script drives the Pulumi automation SDK.  What the SDK answers is not
    the script's to decide, so it is a parameter: a record [sdk] that gives,
    for each call the script makes, either its result or the exception it
    raises.  What the script does is the sequence of its effects, in order:
    the SDK calls it makes, the lines it logs and the lines it prints. *)

Definition PROJECT_NAME : string := "fibfactory".

(** An exception that is an instance of [Exception]: whether it is a
    [StackNotFoundError], and the text [str(e)] gives. *)
Record exn : Type := Exn {
  stack_not_found : bool;
  message : string
}.

Inductive reply (A : Type) : Type :=
  | Ok (a : A)
  | Raise (e : exn).
Arguments Ok {A} a.
Arguments Raise {A} e.

Inductive event : Type :=
  | LogInfo (msg : string)
  | LogError (msg : string)
  | PrintLine (line : string)
  | CreateOrSelectStack (stack project : string)
  | SelectStack (stack project : string)
  | SetConfig (stack key value : string)
  | Up (stack : string)
  | Destroy (stack : string)
  | RemoveStack (stack : string)
  | NewWorkspace (project runtime : string)
  | ListStacks.

(** The answers of the SDK.  [up] and [destroy] first pass lines to the
    [on_output] callback.  The outputs of [up] map a name to the text of its
    value; [destroy] gives the text of [summary.resource_changes] when that
    is a non-empty dictionary and [None] when it is empty or [None];
    [list_stacks] gives the names of the stack summaries. *)
Record sdk : Type := Sdk {
  create_or_select_stack : string → string → reply unit;
  select_stack : string → string → reply unit;
  set_config : string → string → string → reply unit;
  up : string → list string * reply (gmap string string);
  destroy : string → list string * reply (option string);
  remove_stack : string → reply unit;
  new_workspace : string → string → reply unit;
  list_stacks : reply (list string)
}.

(** A run: the effects so far, and a result or the exception that ended it. *)
Definition prog (A : Type) : Type := list event * reply A.

#[global] Instance prog_ret : MRet prog := λ A a, ([], Ok a).

#[global] Instance prog_bind : MBind prog := λ A B f m,
  match m with
  | (t, Ok a) => let '(t', r) := f a in (t ++ t', r)
  | (t, Raise e) => (t, Raise e)
  end.

Definition emit (e : event) : prog unit := ([e], Ok tt).

Definition raise {A : Type} (e : exn) : prog A := ([], Raise e).

(** An SDK call: the call is made, then it returns or raises. *)
Definition invoke {A : Type} (e : event) (r : reply A) : prog A := ([e], r).

(** An SDK call given [on_output=lambda msg: logger.info(msg)]. *)
Definition invoke_logged {A : Type} (e : event) (r : list string * reply A)
  : prog A :=
  (e :: (LogInfo <$> r.1), r.2).

(** [try: m  except Exception as e: h e] *)
Definition try_except {A : Type} (m : prog A) (h : exn → prog A) : prog A :=
  match m with
  | (t, Ok a) => (t, Ok a)
  | (t, Raise e) => let '(t', r) := h e in (t ++ t', r)
  end.

(** [{}.value], which is what a missing output comes to. *)
Definition attribute_error : exn :=
  Exn false "'dict' object has no attribute 'value'".

Definition create_env (w : sdk) (env_id : string) : prog unit :=
  let stack_name := PROJECT_NAME +:+ "-" +:+ env_id in
  try_except
    (invoke (CreateOrSelectStack stack_name PROJECT_NAME)
       (create_or_select_stack w stack_name PROJECT_NAME);;
     emit (LogInfo ("Successfully initialized stack " +:+ stack_name));;
     invoke (SetConfig stack_name "appName" ("fib-app-" +:+ env_id))
       (set_config w stack_name "appName" ("fib-app-" +:+ env_id));;
     invoke (SetConfig stack_name "containerPort" "8080")
       (set_config w stack_name "containerPort" "8080");;
     emit (LogInfo "Config set");;
     emit (LogInfo "Deploying the stack...");;
     outputs ← invoke_logged (Up stack_name) (up w stack_name);
     service_url ←
       match outputs !! "app_runner_service_url" with
       | Some value => mret value
       | None => raise attribute_error
       end;
     emit (LogInfo ("Stack " +:+ stack_name +:+ " created successfully"));;
     emit (LogInfo ("Service URL: " +:+ service_url)))
    (λ e,
       emit (LogError ("Error creating stack: " +:+ message e));;
       raise e).

Definition destroy_env (w : sdk) (env_id : string) : prog unit :=
  let stack_name := PROJECT_NAME +:+ "-" +:+ env_id in
  try_except
    (invoke (SelectStack stack_name PROJECT_NAME)
       (select_stack w stack_name PROJECT_NAME);;
     emit (LogInfo ("Destroying stack " +:+ stack_name));;
     resource_changes ← invoke_logged (Destroy stack_name) (destroy w stack_name);
     match resource_changes with
     | Some changes => emit (LogInfo ("Resources destroyed: " +:+ changes))
     | None => mret tt
     end;;
     emit (LogInfo ("Stack " +:+ stack_name +:+ " destroyed successfully"));;
     invoke (RemoveStack stack_name) (remove_stack w stack_name);;
     emit (LogInfo ("Stack " +:+ stack_name +:+ " removed completely")))
    (λ e,
       if stack_not_found e then
         emit (LogError ("Stack " +:+ stack_name
                         +:+ " not found. It may have already been destroyed."))
       else
         emit (LogError ("Error destroying stack: " +:+ message e))).

(** [name.startswith(PROJECT_NAME)] *)
Definition startswith_project (name : string) : bool :=
  String.prefix PROJECT_NAME name.

Definition list_envs (w : sdk) : prog unit :=
  try_except
    (invoke (NewWorkspace PROJECT_NAME "python")
       (new_workspace w PROJECT_NAME "python");;
     stacks ← invoke ListStacks (list_stacks w);
     emit (PrintLine "Active environments:");;
     ((PrintLine <$> (String.append "- " <$> filter startswith_project stacks), Ok tt)
        : prog unit);;
     if negb (existsb startswith_project stacks) then
       emit (PrintLine "No active environments found.")
     else mret tt)
    (λ e, emit (LogError ("Error listing environments: " +:+ message e))).

(** The three values [argparse] lets through as [action]. *)
Inductive action : Type :=
  | ActCreate
  | ActDestroy
  | ActList.

(** [not args.env_id]: the option was not given, or was given empty. *)
Definition no_env_id (env_id : option string) : bool :=
  match env_id with
  | None => true
  | Some id => if decide (id = EmptyString) then true else false
  end.

Definition main (w : sdk) (act : action) (env_id : option string) : prog unit :=
  match act with
  | ActCreate =>
      if no_env_id env_id then
        emit (PrintLine "Error: --env-id is required for create action")
      else create_env w (default EmptyString env_id)
  | ActDestroy =>
      if no_env_id env_id then
        emit (PrintLine "Error: --env-id is required for destroy action")
      else destroy_env w (default EmptyString env_id)
  | ActList => list_envs w
  end.

(** The name both [create_env] and [destroy_env] give the stack of an
    environment (their local [stack_name]). *)
Definition env_stack (env_id : string) : string :=
  PROJECT_NAME +:+ "-" +:+ env_id.

(** The stack an SDK call is made on. *)
Definition stack_of (e : event) : option string :=
  match e with
  | CreateOrSelectStack stack _ | SelectStack stack _ | SetConfig stack _ _
  | Up stack | Destroy stack | RemoveStack stack => Some stack
  | _ => None
  end.

(** The effects that reach the cloud provider. *)
Definition is_sdk_call (e : event) : bool :=
  match e with
  | LogInfo _ | LogError _ | PrintLine _ => false
  | _ => true
  end.

(** An SDK in which everything succeeds, used to exercise the theorems. *)
Definition happy_sdk : sdk :=
  {| create_or_select_stack := λ _ _, Ok tt;
     select_stack := λ _ _, Ok tt;
     set_config := λ _ _ _, Ok tt;
     up := λ _, (["Updating"],
                 Ok (<["app_runner_service_url" := "https://fib.example"]> ∅));
     destroy := λ _, (["Destroying"], Ok (Some "{'delete': 3}"));
     remove_stack := λ _, Ok tt;
     new_workspace := λ _ _, Ok tt;
     list_stacks := Ok ["fibfactory-dev"; "other-prod"; "fibfactory-qa"] |}.

(** An SDK in which everything succeeds but reports nothing: no output, no
    resource change, no stack. *)
Definition quiet_sdk : sdk :=
  {| create_or_select_stack := λ _ _, Ok tt;
     select_stack := λ _ _, Ok tt;
     set_config := λ _ _ _, Ok tt;
     up := λ _, ([], Ok ∅);
     destroy := λ _, ([], Ok None);
     remove_stack := λ _, Ok tt;
     new_workspace := λ _ _, Ok tt;
     list_stacks := Ok [] |}.

(** An SDK that knows no stack and deploys nothing. *)
Definition failing_sdk : sdk :=
  {| create_or_select_stack := λ _ _, Ok tt;
     select_stack := λ _ _, Raise (Exn true "no stack named fibfactory-dev");
     set_config := λ _ _ _, Ok tt;
     up := λ _, (["Updating"], Raise (Exn false "update failed"));
     destroy := λ _, ([], Ok None);
     remove_stack := λ _, Ok tt;
     new_workspace := λ _ _, Ok tt;
     list_stacks := Raise (Exn false "pulumi not found") |}.

(** ** Unfolding one level of the decorated function *)

Lemma fib_unfold fuel n s :
  fib (S fuel) n s =
    match cache s !! n with
    | Some result => Some (result, hit s)
    | None =>
        if n <? 2 then Some (n, store n n (miss s))
        else
          match fib fuel (n - 1) (miss s) with
          | Some (a, s1) =>
              match fib fuel (n - 2) s1 with
              | Some (b, s2) => Some (a + b, store n (a + b) s2)
              | None => None
              end
          | None => None
          end
    end.
Proof.
  simpl. unfold lru_cache, fib_body.
  destruct (cache s !! n); [reflexivity|].
  destruct (n <? 2); [reflexivity|]. simpl.
  destruct (fib fuel (n - 1) (miss s)) as [[a s1]|]; [simpl|reflexivity].
  destruct (fib fuel (n - 2) s1) as [[b s2]|]; reflexivity.
Qed.

(** Splits a successful call into the three ways it can have gone. *)
Ltac fib_cases H n s :=
  rewrite fib_unfold in H;
  let Hc := fresh "Hc" in
  let Hn := fresh "Hn" in
  let Ha := fresh "Ha" in
  let Hb := fresh "Hb" in
  destruct (cache s !! n) as [?|] eqn:Hc;
    [ injection H as <- <-
    | destruct (Z.ltb_spec n 2) as [Hn|Hn];
      [ injection H as <- <-
      | destruct (fib _ (n - 1) (miss s)) as [[? ?]|] eqn:Ha; [|discriminate H];
        destruct (fib _ (n - 2) _) as [[? ?]|] eqn:Hb; [|discriminate H];
        injection H as <- <- ] ].

(** ** Fuel: more stack never changes a result *)

Lemma fib_fuel_mono fuel fuel' n s r :
  fib fuel n s = Some r → (fuel ≤ fuel')%nat → fib fuel' n s = Some r.
Proof.
  revert fuel' n s r.
  induction fuel as [|fuel IH]; intros fuel' n s r H Hle; [discriminate H|].
  destruct fuel' as [|fuel']; [lia|].
  rewrite fib_unfold in H. rewrite fib_unfold.
  destruct (cache s !! n); [exact H|].
  destruct (n <? 2); [exact H|].
  destruct (fib fuel (n - 1) (miss s)) as [[a s1]|] eqn:Ha; [|discriminate H].
  rewrite (IH fuel' _ _ _ Ha) by lia.
  destruct (fib fuel (n - 2) s1) as [[b s2]|] eqn:Hb; [|discriminate H].
  rewrite (IH fuel' _ _ _ Hb) by lia. exact H.
Qed.

Lemma evaluates_det n s v1 s1 v2 s2 :
  evaluates n s v1 s1 → evaluates n s v2 s2 → v1 = v2 ∧ s1 = s2.
Proof.
  intros [f1 H1] [f2 H2].
  apply (fib_fuel_mono _ (f1 `max` f2)%nat) in H1; [|lia].
  apply (fib_fuel_mono _ (f1 `max` f2)%nat) in H2; [|lia].
  rewrite H1 in H2. injection H2 as -> ->. split; reflexivity.
Qed.

(** ** Termination: a stack deeper than [n] is enough, in any state *)

Lemma fib_total fuel n s :
  (Z.to_nat n < fuel)%nat → is_Some (fib fuel n s).
Proof.
  revert n s. induction fuel as [|fuel IH]; intros n s Hlt; [lia|].
  rewrite fib_unfold.
  destruct (cache s !! n); [eexists; reflexivity|].
  destruct (Z.ltb_spec n 2) as [Hn|Hn]; [eexists; reflexivity|].
  destruct (IH (n - 1) (miss s)) as [[a s1] Ha]; [lia|]. rewrite Ha.
  destruct (IH (n - 2) s1) as [[b s2] Hb]; [lia|]. rewrite Hb.
  eexists; reflexivity.
Qed.

Lemma evaluates_total n s : ∃ v s', evaluates n s v s'.
Proof.
  destruct (fib_total (S (Z.to_nat n)) n s) as [[v s'] H]; [lia|].
  exists v, s', (S (Z.to_nat n)). exact H.
Qed.

(** ** The reference sequence *)

Lemma fib_spec_SS k : fib_spec (S (S k)) = fib_spec (S k) + fib_spec k.
Proof. reflexivity. Qed.

Lemma fib_value_nonneg n : 0 ≤ n → fib_value n = fib_spec (Z.to_nat n).
Proof.
  intros Hn. unfold fib_value.
  destruct (Z.ltb_spec n 2) as [Hlt|Hge]; [|reflexivity].
  assert (n = 0 ∨ n = 1) as [-> | ->] by lia; reflexivity.
Qed.

Lemma fib_value_step n :
  2 ≤ n → fib_value n = fib_value (n - 1) + fib_value (n - 2).
Proof.
  intros Hn. rewrite !fib_value_nonneg by lia.
  replace (Z.to_nat n) with (S (S (Z.to_nat (n - 2)))) by lia.
  replace (Z.to_nat (n - 1)) with (S (Z.to_nat (n - 2))) by lia.
  apply fib_spec_SS.
Qed.

Lemma fib_spec_bounds k : 0 ≤ fib_spec k ∧ fib_spec k ≤ fib_spec (S k).
Proof.
  induction k as [|k [IH0 IH1]].
  { change (fib_spec 0) with 0. change (fib_spec 1) with 1. lia. }
  rewrite fib_spec_SS. lia.
Qed.

Lemma fib_spec_mono j k : (j ≤ k)%nat → fib_spec j ≤ fib_spec k.
Proof.
  induction 1 as [|k _ IH]; [lia|].
  pose proof (fib_spec_bounds k). lia.
Qed.

(** ** The cache invariant *)

Lemma fib_sound fuel n s v s' :
  cache_ok s → fib fuel n s = Some (v, s') → v = fib_value n ∧ cache_ok s'.
Proof.
  revert n s v s'.
  induction fuel as [|fuel IH]; intros n s v s' Hok H; [discriminate H|].
  fib_cases H n s.
  - split; [apply Hok; assumption|exact Hok].
  - assert (n = fib_value n) as Hv.
    { unfold fib_value. destruct (Z.ltb_spec n 2); [reflexivity|lia]. }
    split; [exact Hv|].
    intros k v Hk. simpl in Hk.
    destruct (decide (n = k)) as [->|Hne].
    + rewrite lookup_insert_eq in Hk. congruence.
    + rewrite lookup_insert_ne in Hk by exact Hne. apply Hok. exact Hk.
  - destruct (IH _ (miss s) _ _ Hok Ha) as [-> Hok1].
    destruct (IH _ _ _ _ Hok1 Hb) as [-> Hok2].
    rewrite <- fib_value_step by lia.
    split; [reflexivity|].
    intros k v Hk. simpl in Hk.
    destruct (decide (n = k)) as [->|Hne].
    + rewrite lookup_insert_eq in Hk. congruence.
    + rewrite lookup_insert_ne in Hk by exact Hne. apply Hok2. exact Hk.
Qed.

Lemma init_state_ok : cache_ok init_state.
Proof. intros k v H. simpl in H. rewrite lookup_empty in H. discriminate H. Qed.

Lemma reachable_ok s : reachable s → cache_ok s.
Proof.
  induction 1 as [|s n v s' _ IH [fuel H]]; [exact init_state_ok|].
  exact (proj2 (fib_sound _ _ _ _ _ IH H)).
Qed.

Lemma reachable_valid_reachable s : reachable_valid s → reachable s.
Proof.
  induction 1 as [|s n v s' _ IH _ H]; [constructor|].
  exact (reachable_call _ _ _ _ IH H).
Qed.

(** ** The cache only grows, and never overwrites *)

Lemma fib_preserves fuel n s v s' k x :
  fib fuel n s = Some (v, s') → cache s !! k = Some x → cache s' !! k = Some x.
Proof.
  revert n s v s'.
  induction fuel as [|fuel IH]; intros n s v s' H Hk; [discriminate H|].
  fib_cases H n s; simpl.
  - exact Hk.
  - rewrite lookup_insert_ne; [exact Hk|congruence].
  - rewrite lookup_insert_ne; [|congruence].
    eapply IH; [exact Hb|]. eapply IH; [exact Ha|]. exact Hk.
Qed.

(** A call on a valid index adds keys between 0 and that index only. *)
Lemma fib_new_keys fuel n s v s' k :
  0 ≤ n → fib fuel n s = Some (v, s') →
  is_Some (cache s' !! k) → is_Some (cache s !! k) ∨ 0 ≤ k ≤ n.
Proof.
  revert n s v s'.
  induction fuel as [|fuel IH]; intros n s v s' Hn0 H Hk; [discriminate H|].
  fib_cases H n s; simpl in Hk.
  - left. exact Hk.
  - destruct (decide (n = k)) as [->|Hne]; [right; lia|].
    rewrite lookup_insert_ne in Hk by exact Hne. left. exact Hk.
  - destruct (decide (n = k)) as [->|Hne]; [right; lia|].
    rewrite lookup_insert_ne in Hk by exact Hne.
    destruct (IH (n - 2) _ _ _ ltac:(lia) Hb Hk) as [Hk1|?]; [|right; lia].
    destruct (IH (n - 1) (miss s) _ _ ltac:(lia) Ha Hk1) as [Hk0|?]; [|right; lia].
    left. exact Hk0.
Qed.

Lemma reachable_valid_keys s k :
  reachable_valid s → is_Some (cache s !! k) → 0 ≤ k.
Proof.
  induction 1 as [|s n v s' _ IH Hn [fuel H]]; intros Hk.
  - simpl in Hk. rewrite lookup_empty in Hk. destruct Hk as [? Hk]. discriminate Hk.
  - destruct (fib_new_keys _ _ _ _ _ _ Hn H Hk) as [Hk0|?]; [auto|lia].
Qed.

(** After a call the argument is in the cache, with the value returned. *)
Lemma fib_cached fuel n s v s' :
  fib fuel n s = Some (v, s') → cache s' !! n = Some v.
Proof.
  destruct fuel as [|fuel]; intros H; [discriminate H|].
  fib_cases H n s; simpl; [exact Hc| |]; apply lookup_insert_eq.
Qed.

(** ** Calls in reachable states *)

Lemma evaluates_value n s :
  reachable s → ∃ s', evaluates n s (fib_value n) s'.
Proof.
  intros Hs. destruct (evaluates_total n s) as (v & s' & fuel & H).
  destruct (fib_sound _ _ _ _ _ (reachable_ok _ Hs) H) as [-> _].
  exists s', fuel. exact H.
Qed.

Lemma evaluates_fib_spec n s :
  0 ≤ n → reachable s → ∃ s', evaluates n s (fib_spec (Z.to_nat n)) s'.
Proof.
  intros Hn Hs. rewrite <- fib_value_nonneg by exact Hn.
  apply evaluates_value. exact Hs.
Qed.

Lemma steps_preserve s s' k x :
  rtc step s s' → cache s !! k = Some x → cache s' !! k = Some x.
Proof.
  induction 1 as [s|s t u (n & v & fuel & H) _ IH]; intros Hk; [exact Hk|].
  apply IH. exact (fib_preserves _ _ _ _ _ _ _ H Hk).
Qed.

Lemma warm_state_run : fib 4 3 init_state = Some (2, warm_state).
Proof. vm_compute. reflexivity. Qed.

Lemma warm_state_valid : reachable_valid warm_state.
Proof.
  apply (reachable_valid_call init_state 3 2); [constructor|lia|].
  exists 4%nat. exact warm_state_run.
Qed.

Lemma warm_state_reachable : reachable warm_state.
Proof. apply reachable_valid_reachable, warm_state_valid. Qed.

(** * The claims *)

(** C1. On every index [n >= 0], in every state the process can be in,
    [fib] returns the [n]-th number of the reference sequence (which starts
    0, 1 and adds the two previous terms), and nothing else; the 10th is 55
    and the 20th is 6765, also when run from a fresh process. *)
Theorem fib_returns_fibonacci n s :
  0 ≤ n → reachable s →
  (∃ s', evaluates n s (fib_spec (Z.to_nat n)) s') ∧
  (∀ v s', evaluates n s v s' → v = fib_spec (Z.to_nat n)) ∧
  fib_spec 0 = 0 ∧ fib_spec 1 = 1 ∧
  (∀ k, fib_spec (S (S k)) = fib_spec (S k) + fib_spec k) ∧
  fst <$> fib 11 10 init_state = Some 55 ∧
  fst <$> fib 21 20 init_state = Some 6765.
Proof.
  intros Hn Hs.
  destruct (evaluates_fib_spec n s Hn Hs) as [s' H].
  split; [exists s'; exact H|].
  split; [intros v t Hv; symmetry; exact (proj1 (evaluates_det _ _ _ _ _ _ H Hv))|].
  repeat split; vm_compute; reflexivity.
Qed.

Lemma fib_returns_fibonacci_witness :
  ∃ s', evaluates 10 warm_state (fib_spec (Z.to_nat 10)) s'.
Proof.
  apply (fib_returns_fibonacci 10 warm_state); [lia|exact warm_state_reachable].
Defined.

(** C2, as amended. On a negative index [fib] itself raises nothing: it
    returns its argument.  Negative input is turned away one level up, by
    [get_fib], which answers 400 and leaves the cache and its counters as
    they were. *)
Theorem fib_negative_guarded_by_handler n s :
  n < 0 → reachable s →
  outcome_of (fib 1 n s) = Some (Returned n) ∧
  ∀ fuel, ∃ body, get_fib fuel n s = Some ((body, 400), s).
Proof.
  intros Hn Hs. split.
  - rewrite fib_unfold.
    destruct (cache s !! n) as [v|] eqn:Hc; simpl.
    + rewrite (reachable_ok _ Hs _ _ Hc). unfold fib_value.
      destruct (Z.ltb_spec n 2); [reflexivity|lia].
    + destruct (Z.ltb_spec n 2); [reflexivity|lia].
  - intros fuel. unfold get_fib.
    destruct (Z.ltb_spec n 0); [|lia]. eexists. reflexivity.
Qed.

Lemma fib_negative_guarded_by_handler_witness :
  outcome_of (fib 1 (-5) warm_state) = Some (Returned (-5)) ∧
  ∀ fuel, ∃ body, get_fib fuel (-5) warm_state = Some ((body, 400), warm_state).
Proof.
  apply (fib_negative_guarded_by_handler (-5) warm_state);
    [lia|exact warm_state_reachable].
Defined.

(** C2, as stated, fails: [fib(-1)] and [fib(-1000)] return -1 and -1000,
    and no depth of stack makes the call end in [InvalidArgument]. *)
Lemma fib_negative_not_rejected :
  outcome_of (fib 1 (-1) init_state) = Some (Returned (-1)) ∧
  outcome_of (fib 1 (-1000) init_state) = Some (Returned (-1000)) ∧
  ¬ (∀ n, n < 0 → ∃ fuel, outcome_of (fib fuel n init_state) = Some InvalidArgument).
Proof.
  split; [reflexivity|]. split; [reflexivity|].
  intros H. destruct (H (-1) ltac:(lia)) as [fuel Hf].
  destruct (fib fuel (-1) init_state) as [[v t]|]; discriminate Hf.
Qed.

Lemma negative_call_state_reachable : reachable negative_call_state.
Proof.
  apply (reachable_call init_state (-5) (-5)); [constructor|].
  exists 1%nat. reflexivity.
Qed.

(** C3, as amended. In every state reached by any sequence of calls, on
    whatever integers: an entry at a key [k >= 0] holds the [k]-th number of
    the reference sequence, and an entry at a negative key, which only a call
    on that negative number leaves, holds the key itself; when every call
    was on a valid index all keys are [>= 0], so every entry holds its
    reference number; and whatever calls follow, an entry that is there keeps
    its value. *)
Theorem cache_holds_fib_values_write_once s :
  reachable s →
  (∀ k v, cache s !! k = Some v →
          (0 ≤ k → v = fib_spec (Z.to_nat k)) ∧ (k < 0 → v = k)) ∧
  (reachable_valid s →
   ∀ k v, cache s !! k = Some v → 0 ≤ k ∧ v = fib_spec (Z.to_nat k)) ∧
  (∀ s' k v, rtc step s s' → cache s !! k = Some v → cache s' !! k = Some v).
Proof.
  intros Hs.
  assert (∀ k v, cache s !! k = Some v → 0 ≤ k → v = fib_spec (Z.to_nat k))
    as Hpos.
  { intros k v Hk Hk0. rewrite <- fib_value_nonneg by exact Hk0.
    exact (reachable_ok _ Hs _ _ Hk). }
  split; [|split].
  - intros k v Hk. split; [exact (Hpos k v Hk)|].
    intros Hneg. rewrite (reachable_ok _ Hs _ _ Hk). unfold fib_value.
    destruct (Z.ltb_spec k 2); [reflexivity|lia].
  - intros Hvalid k v Hk.
    assert (0 ≤ k) as Hk0 by (apply (reachable_valid_keys s); eauto).
    split; [exact Hk0|exact (Hpos k v Hk Hk0)].
  - intros s' k v Hsteps Hk. exact (steps_preserve _ _ _ _ Hsteps Hk).
Qed.

Lemma cache_holds_fib_values_write_once_witness :
  (∀ k v, cache negative_call_state !! k = Some v →
          (0 ≤ k → v = fib_spec (Z.to_nat k)) ∧ (k < 0 → v = k)) ∧
  (reachable_valid negative_call_state →
   ∀ k v, cache negative_call_state !! k = Some v →
          0 ≤ k ∧ v = fib_spec (Z.to_nat k)) ∧
  (∀ s' k v, rtc step negative_call_state s' →
     cache negative_call_state !! k = Some v → cache s' !! k = Some v).
Proof.
  apply (cache_holds_fib_values_write_once negative_call_state).
  exact negative_call_state_reachable.
Defined.

(** C3, as stated, fails: after the call [fib(-5)] the cache holds -5 under
    the key -5, where the reference sequence has no term (and its term at
    index 0, the nearest index, is 0); so not every entry of every reachable
    state holds the reference number of its key. *)
Lemma cache_invariant_fails_after_negative_call :
  fib 1 (-5) init_state = Some (-5, negative_call_state) ∧
  reachable negative_call_state ∧
  cache negative_call_state !! (-5) = Some (-5) ∧
  -5 ≠ fib_spec (Z.to_nat (-5)) ∧
  ¬ (∀ s, reachable s →
       ∀ k v, cache s !! k = Some v → 0 ≤ k ∧ v = fib_spec (Z.to_nat k)).
Proof.
  split; [reflexivity|]. split; [exact negative_call_state_reachable|].
  split; [reflexivity|]. split; [discriminate|].
  intros H.
  destruct (H negative_call_state negative_call_state_reachable (-5) (-5))
    as [Hk _]; [reflexivity|lia].
Qed.

(** C4. For [n >= 2], in any state: when [n] is in the cache the call
    returns the stored value, counts a hit and changes nothing else (the
    cache and the miss counter are as before), and one stack frame is enough,
    so the body of [fib] is not run; when [n] is not in the cache the call
    counts a miss, evaluates [fib(n-1)], then [fib(n-2)], and returns their
    sum, after which the cache holds that sum under [n] and is otherwise as
    the two inner calls left it. *)
Theorem fib_consults_cache_first n s :
  2 ≤ n →
  (∀ v, cache s !! n = Some v →
     (∀ fuel, fib (S fuel) n s = Some (v, hit s)) ∧
     cache (hit s) = cache s ∧
     hits (hit s) = S (hits s) ∧
     misses (hit s) = misses s) ∧
  (cache s !! n = None →
   ∃ a s1 b s2 s',
     cache (miss s) = cache s ∧
     misses (miss s) = S (misses s) ∧
     hits (miss s) = hits s ∧
     evaluates (n - 1) (miss s) a s1 ∧
     evaluates (n - 2) s1 b s2 ∧
     evaluates n s (a + b) s' ∧
     s' = store n (a + b) s2 ∧
     cache s' !! n = Some (a + b) ∧
     cache s2 !! n = None ∧
     (∀ k, k ≠ n → cache s' !! k = cache s2 !! k) ∧
     hits s' = hits s2 ∧
     misses s' = misses s2).
Proof.
  intros Hn. split.
  - intros v Hc. split; [|repeat split].
    intros fuel. rewrite fib_unfold, Hc. reflexivity.
  - intros Hc.
    destruct (evaluates_total (n - 1) (miss s)) as (a & s1 & f1 & Ha).
    destruct (evaluates_total (n - 2) s1) as (b & s2 & f2 & Hb).
    exists a, s1, b, s2, (store n (a + b) s2).
    do 3 (split; [reflexivity|]).
    split; [exists f1; exact Ha|]. split; [exists f2; exact Hb|].
    split.
    { exists (S (f1 `max` f2)). rewrite fib_unfold, Hc.
      destruct (Z.ltb_spec n 2); [lia|].
      rewrite (fib_fuel_mono _ (f1 `max` f2)%nat _ _ _ Ha) by lia.
      rewrite (fib_fuel_mono _ (f1 `max` f2)%nat _ _ _ Hb) by lia.
      reflexivity. }
    split; [reflexivity|].
    split; [apply lookup_insert_eq|].
    split.
    { destruct (cache s2 !! n) as [x|] eqn:Hx; [exfalso|reflexivity].
      assert (is_Some (cache s1 !! n)) as Hy.
      { destruct (fib_new_keys f2 (n - 2) s1 b s2 n ltac:(lia) Hb) as [?|?];
          [eauto|assumption|lia]. }
      destruct (fib_new_keys f1 (n - 1) (miss s) a s1 n ltac:(lia) Ha Hy)
        as [[z Hz]|?]; [|lia].
      simpl in Hz. congruence. }
    split; [|split; reflexivity].
    intros k Hk. simpl. apply lookup_insert_ne. congruence.
Qed.

Lemma fib_consults_cache_first_witness :
  ((∀ fuel, fib (S fuel) 3 warm_state = Some (2, hit warm_state)) ∧
   cache (hit warm_state) = cache warm_state ∧
   hits (hit warm_state) = S (hits warm_state) ∧
   misses (hit warm_state) = misses warm_state) ∧
  ∃ a s1 b s2 s',
    cache (miss warm_state) = cache warm_state ∧
    misses (miss warm_state) = S (misses warm_state) ∧
    hits (miss warm_state) = hits warm_state ∧
    evaluates (5 - 1) (miss warm_state) a s1 ∧
    evaluates (5 - 2) s1 b s2 ∧
    evaluates 5 warm_state (a + b) s' ∧
    s' = store 5 (a + b) s2 ∧
    cache s' !! 5 = Some (a + b) ∧
    cache s2 !! 5 = None ∧
    (∀ k, k ≠ 5 → cache s' !! k = cache s2 !! k) ∧
    hits s' = hits s2 ∧
    misses s' = misses s2.
Proof.
  split.
  - apply (proj1 (fib_consults_cache_first 3 warm_state ltac:(lia)) 2).
    vm_compute. reflexivity.
  - apply (proj2 (fib_consults_cache_first 5 warm_state ltac:(lia))).
    vm_compute. reflexivity.
Defined.

(** C5. [get_fib] on a negative [n] answers with the error body and status
    400 without calling [fib]: it needs no stack for it and the cache and
    both counters are untouched.  On [n >= 0] it answers 200 with a body
    that carries [n] and the [n]-th Fibonacci number. *)
Theorem get_fib_status n s :
  reachable s →
  (n < 0 →
   ∀ fuel,
     get_fib fuel n s =
       Some (([("error", JStr "Please provide a non-negative integer")], 400), s)) ∧
  (0 ≤ n →
   ∃ s',
     evaluates n s (fib_spec (Z.to_nat n)) s' ∧
     ∀ fuel, (Z.to_nat n < fuel)%nat →
       get_fib fuel n s =
         Some (([("n", JInt n); ("fib", JInt (fib_spec (Z.to_nat n)))], 200), s')).
Proof.
  intros Hs. split.
  - intros Hn fuel. unfold get_fib.
    destruct (Z.ltb_spec n 0); [reflexivity|lia].
  - intros Hn. destruct (evaluates_fib_spec n s Hn Hs) as [s' H].
    exists s'. split; [exact H|].
    intros fuel Hfuel. unfold get_fib.
    destruct (Z.ltb_spec n 0); [lia|].
    destruct (fib_total fuel n s Hfuel) as [[v t] Hrun].
    destruct (evaluates_det _ _ _ _ _ _ H (ex_intro _ fuel Hrun)) as [<- <-].
    rewrite Hrun. reflexivity.
Qed.

Lemma get_fib_status_witness :
  get_fib 0 (-1) warm_state =
    Some (([("error", JStr "Please provide a non-negative integer")], 400),
          warm_state) ∧
  ∃ s',
    evaluates 10 warm_state (fib_spec (Z.to_nat 10)) s' ∧
    ∀ fuel, (Z.to_nat 10 < fuel)%nat →
      get_fib fuel 10 warm_state =
        Some (([("n", JInt 10); ("fib", JInt (fib_spec (Z.to_nat 10)))], 200), s').
Proof.
  split.
  - apply (proj1 (get_fib_status (-1) warm_state warm_state_reachable)). lia.
  - apply (proj2 (get_fib_status 10 warm_state warm_state_reachable)). lia.
Defined.

(** C6. On every [n >= 0], in any state, the call returns: the recursion
    goes down on [n], so a stack deeper than [n] is enough, and every stack
    that is deep enough gives the same value and the same state; a call that
    returns, returns that. *)
Theorem fib_terminates n s :
  0 ≤ n →
  ∃ v s',
    (∀ fuel, (Z.to_nat n < fuel)%nat → fib fuel n s = Some (v, s')) ∧
    (∀ w t, evaluates n s w t → w = v ∧ t = s') ∧
    (∀ fuel, (Z.to_nat n < fuel)%nat →
       outcome_of (fib fuel n s) = Some (Returned v)).
Proof.
  intros _.
  destruct (fib_total (S (Z.to_nat n)) n s) as [[v s'] H]; [lia|].
  exists v, s'.
  assert (∀ fuel, (Z.to_nat n < fuel)%nat → fib fuel n s = Some (v, s')) as Hall.
  { intros fuel Hfuel. apply (fib_fuel_mono _ _ _ _ _ H). lia. }
  split; [exact Hall|]. split.
  - intros w t Hw.
    destruct (evaluates_det _ _ _ _ _ _ Hw (ex_intro _ _ H)) as [-> ->].
    split; reflexivity.
  - intros fuel Hfuel. rewrite (Hall fuel Hfuel). reflexivity.
Qed.

Lemma fib_terminates_witness :
  ∃ v s',
    (∀ fuel, (Z.to_nat 20 < fuel)%nat → fib fuel 20 warm_state = Some (v, s')) ∧
    (∀ w t, evaluates 20 warm_state w t → w = v ∧ t = s') ∧
    (∀ fuel, (Z.to_nat 20 < fuel)%nat →
       outcome_of (fib fuel 20 warm_state) = Some (Returned v)).
Proof.
  apply (fib_terminates 20 warm_state). lia.
Defined.

(** C7. For [n >= 0] the value does not depend on what was called before:
    from any two states the process can be in, [fib(n)] returns the same
    value, and calling it again right away returns that value once more,
    this time as a cache hit. *)
Theorem fib_order_independent n s1 s2 :
  0 ≤ n → reachable s1 → reachable s2 →
  (∃ v s1' s2',
     evaluates n s1 v s1' ∧
     evaluates n s2 v s2' ∧
     evaluates n s1' v (hit s1')) ∧
  (∀ v1 t1 v2 t2, evaluates n s1 v1 t1 → evaluates n s2 v2 t2 → v1 = v2).
Proof.
  intros Hn H1 H2. split.
  - destruct (evaluates_value n s1 H1) as (s1' & f1 & E1).
    destruct (evaluates_value n s2 H2) as [s2' E2].
    exists (fib_value n), s1', s2'.
    split; [exists f1; exact E1|]. split; [exact E2|].
    exists 1%nat. rewrite fib_unfold, (fib_cached _ _ _ _ _ E1). reflexivity.
  - intros v1 t1 v2 t2 [f1 E1] [f2 E2].
    destruct (fib_sound _ _ _ _ _ (reachable_ok _ H1) E1) as [-> _].
    destruct (fib_sound _ _ _ _ _ (reachable_ok _ H2) E2) as [-> _].
    reflexivity.
Qed.

Lemma fib_order_independent_witness :
  (∃ v s1' s2',
     evaluates 7 init_state v s1' ∧
     evaluates 7 warm_state v s2' ∧
     evaluates 7 s1' v (hit s1')) ∧
  (∀ v1 t1 v2 t2,
     evaluates 7 init_state v1 t1 → evaluates 7 warm_state v2 t2 → v1 = v2).
Proof.
  apply (fib_order_independent 7 init_state warm_state);
    [lia|exact reachable_init|exact warm_state_reachable].
Defined.

(** ** Past the 64-bit range *)

(** The 93rd number, obtained by running [fib] itself from a fresh process. *)
Lemma fib_spec_93 : fib_spec 93 = 12200160415121876738.
Proof.
  assert (fst <$> fib 94 93 init_state = Some 12200160415121876738) as Hrun
    by (vm_compute; reflexivity).
  destruct (fib 94 93 init_state) as [[v t]|] eqn:H; [|discriminate Hrun].
  injection Hrun as ->.
  destruct (fib_sound _ _ _ _ _ init_state_ok H) as [Hv _].
  rewrite fib_value_nonneg in Hv by lia.
  symmetry. exact Hv.
Qed.

(** C8. The result is the exact Fibonacci number, an unbounded integer: for
    every [n >= 0] the call returns the [n]-th number of the reference
    sequence, and from [n = 93] on that number is above the largest signed
    64-bit integer, [2^63 - 1]; run from a fresh process, [fib(93)] is
    12200160415121876738. *)
Theorem fib_exact_beyond_int64 n s :
  0 ≤ n → reachable s →
  (∃ s', evaluates n s (fib_spec (Z.to_nat n)) s') ∧
  (93 ≤ n → 2 ^ 63 - 1 < fib_spec (Z.to_nat n)) ∧
  fst <$> fib 94 93 init_state = Some 12200160415121876738.
Proof.
  intros Hn Hs. split; [exact (evaluates_fib_spec n s Hn Hs)|]. split.
  - intros Hbig.
    assert (fib_spec 93 ≤ fib_spec (Z.to_nat n)) as Hle
      by (apply fib_spec_mono; lia).
    rewrite fib_spec_93 in Hle. lia.
  - vm_compute. reflexivity.
Qed.

Lemma fib_exact_beyond_int64_witness :
  (∃ s', evaluates 100 warm_state (fib_spec (Z.to_nat 100)) s') ∧
  2 ^ 63 - 1 < fib_spec (Z.to_nat 100).
Proof.
  destruct (fib_exact_beyond_int64 100 warm_state ltac:(lia) warm_state_reachable)
    as (Hrun & Hbig & _).
  split; [exact Hrun|]. apply Hbig. lia.
Defined.

(** C9. On a negative [n], in every state the process can be in (calls on
    negative integers included), [fib] returns [n]: one stack frame is
    enough, so it does not recurse, and the call ends by a return; the state
    it leaves is a counted hit, or a counted miss with [n] stored under
    [n]. *)
Theorem fib_negative_returns_argument n s :
  n < 0 → reachable s →
  ∃ s',
    fib 1 n s = Some (n, s') ∧
    outcome_of (fib 1 n s) = Some (Returned n) ∧
    (s' = hit s ∨ s' = store n n (miss s)).
Proof.
  intros Hn Hs. rewrite fib_unfold.
  destruct (cache s !! n) as [v|] eqn:Hc.
  - assert (v = n) as ->.
    { rewrite (reachable_ok _ Hs _ _ Hc). unfold fib_value.
      destruct (Z.ltb_spec n 2); [reflexivity|lia]. }
    exists (hit s). repeat split. left. reflexivity.
  - destruct (Z.ltb_spec n 2); [|lia].
    exists (store n n (miss s)). repeat split. right. reflexivity.
Qed.

Lemma fib_negative_returns_argument_witness :
  ∃ s',
    fib 1 (-5) warm_state = Some (-5, s') ∧
    outcome_of (fib 1 (-5) warm_state) = Some (Returned (-5)) ∧
    (s' = hit warm_state ∨ s' = store (-5) (-5) (miss warm_state)).
Proof.
  apply (fib_negative_returns_argument (-5) warm_state);
    [lia|exact warm_state_reachable].
Defined.

(** C10. For [n >= 0], whatever states the two calls are made in, [fib(n)]
    and [fib(n+1)] return values [a] and [b] with [0 <= a <= b]. *)
Theorem fib_nonneg_monotone n s t :
  0 ≤ n → reachable s → reachable t →
  ∃ a s' b t',
    evaluates n s a s' ∧ evaluates (n + 1) t b t' ∧ 0 ≤ a ∧ a ≤ b.
Proof.
  intros Hn Hs Ht.
  destruct (evaluates_fib_spec n s Hn Hs) as [s' Ha].
  destruct (evaluates_fib_spec (n + 1) t ltac:(lia) Ht) as [t' Hb].
  exists (fib_spec (Z.to_nat n)), s', (fib_spec (Z.to_nat (n + 1))), t'.
  split; [exact Ha|]. split; [exact Hb|].
  replace (Z.to_nat (n + 1)) with (S (Z.to_nat n)) by lia.
  exact (fib_spec_bounds (Z.to_nat n)).
Qed.

Lemma fib_nonneg_monotone_witness :
  ∃ a s' b t',
    evaluates 6 warm_state a s' ∧ evaluates (6 + 1) init_state b t' ∧
    0 ≤ a ∧ a ≤ b.
Proof.
  apply (fib_nonneg_monotone 6 warm_state init_state);
    [lia|exact warm_state_reachable|exact reachable_init].
Defined.

(** * Further properties of [app/app.py] *)

(** ** Which keys a call adds *)

Lemma fib_added_keys fuel n s v s' k :
  fib fuel n s = Some (v, s') →
  is_Some (cache s' !! k) → is_Some (cache s !! k) ∨ k = n ∨ 0 ≤ k < n.
Proof.
  revert n s v s'.
  induction fuel as [|fuel IH]; intros n s v s' H Hk; [discriminate H|].
  fib_cases H n s; simpl in Hk.
  - left. exact Hk.
  - destruct (decide (n = k)) as [->|Hne]; [right; left; reflexivity|].
    rewrite lookup_insert_ne in Hk by exact Hne. left. exact Hk.
  - destruct (decide (n = k)) as [->|Hne]; [right; left; reflexivity|].
    rewrite lookup_insert_ne in Hk by exact Hne.
    destruct (IH (n - 2) _ _ _ Hb Hk) as [Hk1|?]; [|right; right; lia].
    destruct (IH (n - 1) (miss s) _ _ Ha Hk1) as [Hk0|?]; [|right; right; lia].
    left. exact Hk0.
Qed.

(** The key of a miss is still absent when the two inner calls are done. *)
Lemma fib_inner_fresh f1 f2 n s a s1 b s2 :
  cache s !! n = None →
  fib f1 (n - 1) (miss s) = Some (a, s1) →
  fib f2 (n - 2) s1 = Some (b, s2) →
  cache s2 !! n = None.
Proof.
  intros Hc Ha Hb.
  destruct (cache s2 !! n) as [x|] eqn:Hx; [exfalso|reflexivity].
  destruct (fib_added_keys _ _ _ _ _ n Hb) as [H1|?]; [eauto| |lia].
  destruct (fib_added_keys _ _ _ _ _ n Ha H1) as [[y Hy]|?]; [|lia].
  simpl in Hy. congruence.
Qed.

Lemma fib_misses_size fuel n s v s' :
  fib fuel n s = Some (v, s') →
  (misses s' + size (cache s) = misses s + size (cache s'))%nat.
Proof.
  revert n s v s'.
  induction fuel as [|fuel IH]; intros n s v s' H; [discriminate H|].
  fib_cases H n s; simpl.
  - lia.
  - rewrite map_size_insert_None by exact Hc. lia.
  - rewrite map_size_insert_None by exact (fib_inner_fresh _ _ _ _ _ _ _ _ Hc Ha Hb).
    pose proof (IH _ _ _ _ Ha) as E1. pose proof (IH _ _ _ _ Hb) as E2.
    simpl in E1. lia.
Qed.

(** X1. In every state the process can be in, the miss counter equals the
    number of entries in the cache: each miss ends by storing one new key. *)
Theorem misses_count_entries s :
  reachable s → misses s = size (cache s).
Proof.
  induction 1 as [|s n v s' _ IH [fuel H]]; [reflexivity|].
  pose proof (fib_misses_size _ _ _ _ _ H). lia.
Qed.

Lemma misses_count_entries_witness : misses warm_state = size (cache warm_state).
Proof. apply (misses_count_entries warm_state). exact warm_state_reachable. Defined.

(** ** How much work a call does *)

Lemma lookups_hit s : lookups (hit s) = lookups s + 1.
Proof. unfold lookups. simpl. lia. Qed.

Lemma lookups_miss s : lookups (miss s) = lookups s + 1.
Proof. unfold lookups. simpl. lia. Qed.

Lemma lookups_store n v s : lookups (store n v s) = lookups s.
Proof. reflexivity. Qed.

(** A call on a cached argument is one hit and nothing more. *)
Lemma fib_on_cached fuel n s v s' :
  is_Some (cache s !! n) → fib fuel n s = Some (v, s') → s' = hit s.
Proof.
  intros [x Hx] H. destruct fuel as [|fuel]; [discriminate H|].
  rewrite fib_unfold, Hx in H. injection H as _ <-. reflexivity.
Qed.

(** How a completed call went: a hit; or a miss below 2; or a miss from 2 on,
    after which the index just below the argument is cached. *)
Lemma fib_shape fuel n s v s' :
  fib fuel n s = Some (v, s') →
  s' = hit s ∨
  (n < 2 ∧ s' = store n n (miss s)) ∨
  (2 ≤ n ∧ is_Some (cache s' !! (n - 1))).
Proof.
  intros H. destruct fuel as [|fuel]; [discriminate H|].
  fib_cases H n s.
  - left. reflexivity.
  - right. left. split; [exact Hn|reflexivity].
  - right. right. split; [exact Hn|]. simpl.
    rewrite lookup_insert_ne by lia.
    exists z. eapply fib_preserves; [exact Hb|].
    exact (fib_cached _ _ _ _ _ Ha).
Qed.

Lemma fib_lookups_bound fuel n s v s' :
  fib fuel n s = Some (v, s') →
  1 ≤ lookups s' - lookups s ≤ Z.max 1 (2 * n - 1).
Proof.
  revert n s v s'.
  induction fuel as [|fuel IH]; intros n s v s' H; [discriminate H|].
  fib_cases H n s.
  - rewrite lookups_hit. lia.
  - rewrite lookups_store, lookups_miss. lia.
  - rewrite lookups_store.
    pose proof (IH _ _ _ _ Ha) as B1. rewrite lookups_miss in B1.
    pose proof (IH _ _ _ _ Hb) as B2.
    destruct (fib_shape _ _ _ _ _ Ha) as [->|[[Hlt ->]|[Hge Hcached]]].
    + rewrite lookups_hit, lookups_miss in *. lia.
    + rewrite lookups_store, lookups_miss, lookups_miss in *. lia.
    + replace (n - 1 - 1) with (n - 2) in Hcached by lia.
      rewrite (fib_on_cached _ _ _ _ _ Hcached Hb) in *.
      rewrite lookups_hit in *. lia.
Qed.

(** X2. Memoization makes the work linear: in any state, a call of [fib]
    on [n] that returns has made at least one and at most [max 1 (2n - 1)]
    cache lookups, its own and those of the calls nested in it. *)
Theorem fib_linear_work n s v s' :
  evaluates n s v s' →
  1 ≤ lookups s' - lookups s ≤ Z.max 1 (2 * n - 1).
Proof.
  intros [fuel H]. exact (fib_lookups_bound _ _ _ _ _ H).
Qed.

Lemma fib_linear_work_witness :
  1 ≤ lookups warm_state - lookups init_state ≤ Z.max 1 (2 * 3 - 1).
Proof.
  apply (fib_linear_work 3 init_state 2 warm_state).
  exists 4%nat. exact warm_state_run.
Defined.

(** ** The shape of the cache *)

Lemma closed_below_store n v s :
  (2 ≤ n → is_Some (cache s !! (n - 1)) ∧ is_Some (cache s !! (n - 2))) →
  closed_below s → closed_below (store n v s).
Proof.
  intros Hn Hs k Hk Hin. simpl in *.
  assert (∀ j, is_Some (cache s !! j) → is_Some (<[n:=v]> (cache s) !! j)) as Hup.
  { intros j Hj. rewrite lookup_insert_is_Some. destruct (decide (n = j)); auto. }
  destruct (decide (n = k)) as [->|Hne].
  - destruct (Hn Hk). split; apply Hup; assumption.
  - rewrite lookup_insert_ne in Hin by exact Hne.
    destruct (Hs k Hk Hin). split; apply Hup; assumption.
Qed.

Lemma fib_closed_below fuel n s v s' :
  closed_below s → fib fuel n s = Some (v, s') → closed_below s'.
Proof.
  revert n s v s'.
  induction fuel as [|fuel IH]; intros n s v s' Hs H; [discriminate H|].
  fib_cases H n s.
  - exact Hs.
  - apply closed_below_store; [lia|exact Hs].
  - apply closed_below_store.
    + intros _. split.
      * exists z. eapply fib_preserves; [exact Hb|].
        exact (fib_cached _ _ _ _ _ Ha).
      * exists z0. exact (fib_cached _ _ _ _ _ Hb).
    + eapply IH; [|exact Hb]. eapply (IH _ (miss s)); [exact Hs|exact Ha].
Qed.

Lemma reachable_closed_below s : reachable s → closed_below s.
Proof.
  induction 1 as [|s n v s' _ IH [fuel H]].
  - intros k _ [x Hx]. simpl in Hx. rewrite lookup_empty in Hx. discriminate Hx.
  - exact (fib_closed_below _ _ _ _ _ IH H).
Qed.

Lemma closed_below_segment s (m : nat) :
  closed_below s →
  ∀ k, 2 ≤ k → k ≤ Z.of_nat m → is_Some (cache s !! k) →
  ∀ j, 0 ≤ j ≤ k → is_Some (cache s !! j).
Proof.
  intros Hs. induction m as [|m IH]; intros k Hk Hm Hin j Hj; [lia|].
  destruct (Hs k Hk Hin) as [H1 H2].
  destruct (decide (j = k)) as [->|Hjk]; [exact Hin|].
  destruct (decide (j = k - 1)) as [->|Hjk1]; [exact H1|].
  destruct (decide (j = k - 2)) as [->|Hjk2]; [exact H2|].
  apply (IH (k - 1)); [lia|lia|exact H1|lia].
Qed.

(** X3. In every state the process can be in, the non-negative part of the
    cache is an initial segment: when an index [k >= 2] is cached, so is every
    index from 0 to [k]. *)
Theorem cache_is_initial_segment s k j :
  reachable s → 2 ≤ k → is_Some (cache s !! k) → 0 ≤ j ≤ k →
  is_Some (cache s !! j).
Proof.
  intros Hs Hk Hin Hj.
  apply (closed_below_segment s (Z.to_nat k) (reachable_closed_below s Hs) k);
    [exact Hk|lia|exact Hin|exact Hj].
Qed.

Lemma cache_is_initial_segment_witness : is_Some (cache warm_state !! 1).
Proof.
  apply (cache_is_initial_segment warm_state 3 1);
    [exact warm_state_reachable|lia|vm_compute; eauto|lia].
Defined.

(** ** A call on a cold cache *)

Lemma fib_cold_run (m : nat) s :
  (∀ k, 0 ≤ k ≤ Z.of_nat m + 2 → cache s !! k = None) →
  ∃ s',
    fib (S (S m)) (Z.of_nat m + 2) s = Some (fib_spec (S (S m)), s') ∧
    misses s' = (misses s + m + 3)%nat ∧
    hits s' = (hits s + m)%nat ∧
    ∀ k, 0 ≤ k ≤ Z.of_nat m + 2 → cache s' !! k = Some (fib_spec (Z.to_nat k)).
Proof.
  revert s. induction m as [|m IH]; intros s Hcold.
  - change (Z.of_nat 0 + 2) with 2 in *.
    eexists. split; [|split; [|split]].
    + rewrite fib_unfold, (Hcold 2) by lia.
      change (2 <? 2) with false. cbv iota.
      change (2 - 1) with 1. change (2 - 2) with 0.
      rewrite (fib_unfold 0 1 (miss s)).
      change (cache (miss s)) with (cache s). rewrite (Hcold 1) by lia.
      change (1 <? 2) with true. cbv iota.
      rewrite fib_unfold.
      change (cache (store 1 1 (miss (miss s)))) with (<[1:=1]> (cache s)).
      rewrite lookup_insert_ne by lia. rewrite (Hcold 0) by lia.
      reflexivity.
    + simpl. lia.
    + simpl. lia.
    + intros k Hk. simpl.
      assert (k = 0 ∨ k = 1 ∨ k = 2) as [-> | [-> | ->]] by lia.
      * rewrite lookup_insert_ne, lookup_insert_eq by lia. reflexivity.
      * rewrite !lookup_insert_ne, lookup_insert_eq by lia. reflexivity.
      * rewrite lookup_insert_eq. reflexivity.
  - destruct (IH (miss s)) as (s1 & Hrun & Hmiss & Hhit & Hkeys).
    { intros k Hk. simpl. apply Hcold. lia. }
    exists (store (Z.of_nat (S m) + 2)
              (fib_spec (S (S m)) + fib_spec (S m)) (hit s1)).
    split; [|split; [|split]].
    + rewrite fib_unfold, Hcold by lia.
      destruct (Z.ltb_spec (Z.of_nat (S m) + 2) 2) as [?|_]; [lia|].
      replace (Z.of_nat (S m) + 2 - 1) with (Z.of_nat m + 2) by lia.
      replace (Z.of_nat (S m) + 2 - 2) with (Z.of_nat m + 1) by lia.
      rewrite Hrun, fib_unfold, (Hkeys (Z.of_nat m + 1)) by lia.
      replace (Z.to_nat (Z.of_nat m + 1)) with (S m) by lia.
      rewrite (fib_spec_SS (S m)). reflexivity.
    + simpl in *. lia.
    + simpl in *. lia.
    + intros k Hk. simpl.
      destruct (decide (Z.of_nat (S m) + 2 = k)) as [<-|Hne].
      * rewrite lookup_insert_eq.
        replace (Z.to_nat (Z.of_nat (S m) + 2)) with (S (S (S m))) by lia.
        rewrite (fib_spec_SS (S m)). reflexivity.
      * rewrite lookup_insert_ne by exact Hne. apply Hkeys. lia.
Qed.

(** X4. On a cache that holds none of the indices 0 to [n], in whatever
    state it is otherwise, [fib(n)] for [n >= 2] returns the [n]-th Fibonacci
    number with a stack of [n] nested calls, after exactly [n + 1] misses and
    [n - 2] hits, and leaves every index from 0 to [n] cached with its
    Fibonacci number. *)
Theorem fib_cold_cache_cost n s :
  2 ≤ n →
  (∀ k, 0 ≤ k ≤ n → cache s !! k = None) →
  ∃ s',
    fib (Z.to_nat n) n s = Some (fib_spec (Z.to_nat n), s') ∧
    Z.of_nat (misses s') = Z.of_nat (misses s) + n + 1 ∧
    Z.of_nat (hits s') = Z.of_nat (hits s) + n - 2 ∧
    ∀ k, 0 ≤ k ≤ n → cache s' !! k = Some (fib_spec (Z.to_nat k)).
Proof.
  intros Hn Hcold.
  destruct (fib_cold_run (Z.to_nat (n - 2)) s) as (s' & Hrun & Hm & Hh & Hk).
  { intros k Hk. apply Hcold. lia. }
  replace (Z.of_nat (Z.to_nat (n - 2)) + 2) with n in * by lia.
  replace (S (S (Z.to_nat (n - 2)))) with (Z.to_nat n) in * by lia.
  exists s'. split; [exact Hrun|]. split; [lia|]. split; [lia|exact Hk].
Qed.

Lemma fib_cold_cache_cost_witness :
  ∃ s',
    fib (Z.to_nat 6) 6 init_state = Some (fib_spec (Z.to_nat 6), s') ∧
    Z.of_nat (misses s') = Z.of_nat (misses init_state) + 6 + 1 ∧
    Z.of_nat (hits s') = Z.of_nat (hits init_state) + 6 - 2 ∧
    ∀ k, 0 ≤ k ≤ 6 → cache s' !! k = Some (fib_spec (Z.to_nat k)).
Proof.
  apply (fib_cold_cache_cost 6 init_state); [lia|].
  intros k _. apply lookup_empty.
Defined.

(** ** How deep the recursion goes *)

Lemma fib_cold_too_shallow fuel n s :
  (∀ k, 2 ≤ k ≤ n → cache s !! k = None) →
  (fuel < Z.to_nat n)%nat → fib fuel n s = None.
Proof.
  revert n s. induction fuel as [|fuel IH]; intros n s Hcold Hlt; [reflexivity|].
  rewrite fib_unfold, Hcold by lia.
  destruct (Z.ltb_spec n 2) as [?|_]; [lia|].
  rewrite (IH (n - 1) (miss s)); [reflexivity| |lia].
  intros k Hk. simpl. apply Hcold. lia.
Qed.

Lemma fib_deep_enough fuel n s :
  1 ≤ n → (Z.to_nat n ≤ fuel)%nat → is_Some (fib fuel n s).
Proof.
  revert n s. induction fuel as [|fuel IH]; intros n s Hn Hle; [lia|].
  rewrite fib_unfold.
  destruct (cache s !! n); [eexists; reflexivity|].
  destruct (Z.ltb_spec n 2) as [?|Hge]; [eexists; reflexivity|].
  destruct (IH (n - 1) (miss s)) as [[a s1] Ha]; [lia|lia|]. rewrite Ha.
  destruct (fib_total fuel (n - 2) s1) as [[b s2] Hb]; [lia|]. rewrite Hb.
  eexists; reflexivity.
Qed.

(** X5. The depth of the recursion on a cold cache is the index itself: for
    [n >= 1], when none of the indices 2 to [n] is cached, [fib(n)] returns
    if and only if the stack allows [n] nested calls of [fib]; with fewer it
    runs out of stack. *)
Theorem fib_cold_depth fuel n s :
  1 ≤ n →
  (∀ k, 2 ≤ k ≤ n → cache s !! k = None) →
  is_Some (fib fuel n s) ↔ (Z.to_nat n ≤ fuel)%nat.
Proof.
  intros Hn Hcold. split.
  - intros Hsome. destruct (decide (Z.to_nat n ≤ fuel)%nat) as [|Hlt]; [assumption|].
    rewrite (fib_cold_too_shallow fuel n s Hcold) in Hsome by lia.
    destruct Hsome as [? Hx]. discriminate Hx.
  - intros Hle. exact (fib_deep_enough fuel n s Hn Hle).
Qed.

Lemma fib_cold_depth_witness :
  is_Some (fib 9 10 init_state) ↔ (Z.to_nat 10 ≤ 9)%nat.
Proof.
  apply (fib_cold_depth 9 10 init_state); [lia|].
  intros k _. apply lookup_empty.
Defined.



(** ** Requests served one after the other *)

Lemma get_fib_inv fuel n s x s' :
  get_fib fuel n s = Some (x, s') →
  (n < 0 ∧ s' = s ∧ x.2 = 400) ∨
  (0 ≤ n ∧ x.2 = 200 ∧ ∃ v, fib fuel n s = Some (v, s')).
Proof.
  unfold get_fib. intros H.
  destruct (Z.ltb_spec n 0) as [Hn|Hn].
  - injection H as <- <-. left. auto.
  - destruct (fib fuel n s) as [[v t]|]; [|discriminate H].
    injection H as <- <-. right. eauto.
Qed.

Lemma handle_valid fuel r s x s' :
  reachable_valid s → handle fuel r s = Some (x, s') → reachable_valid s'.
Proof.
  intros Hs H. destruct r as [n|]; simpl in H.
  - destruct (get_fib_inv _ _ _ _ _ H) as [(_ & -> & _)|(Hn & _ & v & Hv)];
      [exact Hs|].
    exact (reachable_valid_call s n v s' Hs Hn (ex_intro _ fuel Hv)).
  - injection H as _ <-. exact Hs.
Qed.

Lemma serve_cons fuel r rs s :
  serve fuel (r :: rs) s =
    match handle fuel r s with
    | Some (x, s1) =>
        match serve fuel rs s1 with
        | Some (xs, s2) => Some (x :: xs, s2)
        | None => None
        end
    | None => None
    end.
Proof.
  simpl. destruct (handle fuel r s) as [[x s1]|]; [simpl|reflexivity].
  destruct (serve fuel rs s1) as [[xs s2]|]; reflexivity.
Qed.

Lemma serve_valid fuel rs s out s' :
  reachable_valid s → serve fuel rs s = Some (out, s') → reachable_valid s'.
Proof.
  revert s out. induction rs as [|r rs IH]; intros s out Hs H.
  - injection H as _ <-. exact Hs.
  - rewrite serve_cons in H.
    destruct (handle fuel r s) as [[x s1]|] eqn:Hr; [|discriminate H].
    destruct (serve fuel rs s1) as [[xs s2]|] eqn:Hrs; [|discriminate H].
    injection H as _ <-.
    exact (IH _ _ (handle_valid _ _ _ _ _ Hs Hr) Hrs).
Qed.

(** X7. The guard of [get_fib] keeps negative numbers out of the cache:
    after any sequence of [/fib] and [/health] requests, on any integers,
    served from a fresh process, every cache entry sits at a key [k >= 0] and
    holds the [k]-th Fibonacci number. *)
Theorem serve_never_caches_negative fuel rs out s' :
  serve fuel rs init_state = Some (out, s') →
  ∀ k v, cache s' !! k = Some v → 0 ≤ k ∧ v = fib_spec (Z.to_nat k).
Proof.
  intros H k v Hk.
  assert (reachable_valid s') as Hs'
    by exact (serve_valid _ _ _ _ _ reachable_valid_init H).
  assert (0 ≤ k) as Hk0 by (apply (reachable_valid_keys s'); eauto).
  split; [exact Hk0|].
  rewrite <- fib_value_nonneg by exact Hk0.
  exact (reachable_ok _ (reachable_valid_reachable _ Hs') _ _ Hk).
Qed.

Lemma serve_never_caches_negative_witness :
  0 ≤ 2 ∧ 1 = fib_spec (Z.to_nat 2).
Proof.
  apply (serve_never_caches_negative 3
           [FibRequest (-4); HealthRequest; FibRequest 2]
           [([("error", JStr "Please provide a non-negative integer")], 400);
            ([("status", JStr "healthy")], 200);
            ([("n", JInt 2); ("fib", JInt 1)], 200)]
           (store 2 1 (store 0 0 (miss (store 1 1 (miss (miss init_state))))))).
  - vm_compute. reflexivity.
  - vm_compute. reflexivity.
Defined.

(** Requests the routes match are answered by their index alone. *)
Lemma serve_matched fuel rs s :
  reachable s →
  (∀ n, FibRequest n ∈ rs → 0 ≤ n ∧ (Z.to_nat n < fuel)%nat) →
  ∃ s', serve fuel rs s = Some (answer_of <$> rs, s') ∧ reachable s'.
Proof.
  revert s. induction rs as [|r rs IH]; intros s Hs Hrs.
  - exists s. split; [reflexivity|exact Hs].
  - assert (∃ s1, handle fuel r s = Some (answer_of r, s1) ∧ reachable s1)
      as (s1 & Hr & Hs1).
    { destruct r as [n|]; simpl.
      - destruct (Hrs n) as [Hn Hfuel]; [left|].
        unfold get_fib. destruct (Z.ltb_spec n 0) as [?|_]; [lia|].
        destruct (fib_total fuel n s Hfuel) as [[v t] Hv]. rewrite Hv.
        destruct (fib_sound _ _ _ _ _ (reachable_ok _ Hs) Hv) as [-> _].
        rewrite (fib_value_nonneg n Hn).
        exists t. split; [reflexivity|].
        exact (reachable_call s n _ t Hs (ex_intro _ fuel Hv)).
      - exists s. split; [reflexivity|exact Hs]. }
    destruct (IH s1 Hs1) as (s2 & Hrest & Hs2).
    { intros n Hn. apply Hrs. right. exact Hn. }
    exists s2. rewrite serve_cons, Hr, Hrest, fmap_cons.
    split; [reflexivity|exact Hs2].
Qed.

(** X8. The service answers by the request alone: in every state the process
    can be in, a sequence of requests that the routes match ([/health], and
    [/fib/<n>] with [n >= 0]) is served, once the stack is deeper than every
    index requested, and each request gets status 200 and the body that
    belongs to it, [n] with the [n]-th Fibonacci number or the health status,
    whatever was requested before. *)
Theorem serve_answers_matched_requests fuel rs s :
  reachable s →
  (∀ n, FibRequest n ∈ rs → 0 ≤ n ∧ (Z.to_nat n < fuel)%nat) →
  ∃ s', serve fuel rs s = Some (answer_of <$> rs, s').
Proof.
  intros Hs Hrs. destruct (serve_matched fuel rs s Hs Hrs) as (s' & H & _).
  exists s'. exact H.
Qed.

Lemma serve_answers_matched_requests_witness :
  ∃ s',
    serve 6 [FibRequest 5; HealthRequest; FibRequest 0] warm_state
      = Some (answer_of <$> [FibRequest 5; HealthRequest; FibRequest 0], s').
Proof.
  apply (serve_answers_matched_requests 6
           [FibRequest 5; HealthRequest; FibRequest 0] warm_state).
  - exact warm_state_reachable.
  - intros n Hn.
    apply elem_of_cons in Hn as [Hn|Hn]; [injection Hn as ->; split; [lia|vm_compute; lia]|].
    apply elem_of_cons in Hn as [Hn|Hn]; [discriminate Hn|].
    apply elem_of_cons in Hn as [Hn|Hn]; [injection Hn as ->; split; [lia|vm_compute; lia]|].
    apply elem_of_nil in Hn. destruct Hn.
Defined.

(** X9. The [/health] route is invisible to the evaluator: a sequence of
    requests leaves the same state, and gives the [/fib] requests the same
    answers, as the sequence with its [/health] requests taken out. *)
Theorem health_requests_are_invisible fuel rs s out s' :
  serve fuel rs s = Some (out, s') →
  serve fuel (filter is_fib_request rs) s = Some (fib_answers rs out, s').
Proof.
  revert s out. induction rs as [|r rs IH]; intros s out H.
  - injection H as <- <-. reflexivity.
  - rewrite serve_cons in H.
    destruct (handle fuel r s) as [[x s1]|] eqn:Hr; [|discriminate H].
    destruct (serve fuel rs s1) as [[xs s2]|] eqn:Hrs; [|discriminate H].
    injection H as <- <-.
    destruct r as [n|].
    + rewrite filter_cons_True by reflexivity.
      rewrite serve_cons, Hr, (IH _ _ Hrs). reflexivity.
    + rewrite filter_cons_False by (simpl; auto).
      simpl in Hr. injection Hr as _ <-. simpl. exact (IH _ _ Hrs).
Qed.

Lemma health_requests_are_invisible_witness :
  serve 3 (filter is_fib_request [HealthRequest; FibRequest 2; HealthRequest])
    init_state
  = Some (fib_answers [HealthRequest; FibRequest 2; HealthRequest]
            [([("status", JStr "healthy")], 200);
             ([("n", JInt 2); ("fib", JInt 1)], 200);
             ([("status", JStr "healthy")], 200)],
          store 2 1 (store 0 0 (miss (store 1 1 (miss (miss init_state)))))).
Proof.
  apply (health_requests_are_invisible 3
           [HealthRequest; FibRequest 2; HealthRequest] init_state).
  vm_compute. reflexivity.
Defined.

(** ** How large the cache grows *)

Lemma handle_keys_within N fuel r s x s' :
  (∀ n, r = FibRequest n → n ≤ N) →
  (∀ k, is_Some (cache s !! k) → 0 ≤ k ≤ N) →
  handle fuel r s = Some (x, s') →
  ∀ k, is_Some (cache s' !! k) → 0 ≤ k ≤ N.
Proof.
  intros Hr Hs H k Hk. destruct r as [n|]; simpl in H.
  - specialize (Hr n eq_refl).
    destruct (get_fib_inv _ _ _ _ _ H) as [(_ & -> & _)|(Hn & _ & v & Hv)];
      [exact (Hs k Hk)|].
    destruct (fib_added_keys _ _ _ _ _ k Hv Hk) as [Hold|Hnew];
      [exact (Hs k Hold)|lia].
  - injection H as _ <-. exact (Hs k Hk).
Qed.

Lemma serve_keys_within N fuel rs s out s' :
  (∀ n, FibRequest n ∈ rs → n ≤ N) →
  (∀ k, is_Some (cache s !! k) → 0 ≤ k ≤ N) →
  serve fuel rs s = Some (out, s') →
  ∀ k, is_Some (cache s' !! k) → 0 ≤ k ≤ N.
Proof.
  revert s out. induction rs as [|r rs IH]; intros s out Hrs Hs H.
  - injection H as _ <-. exact Hs.
  - rewrite serve_cons in H.
    destruct (handle fuel r s) as [[x s1]|] eqn:Hr; [|discriminate H].
    destruct (serve fuel rs s1) as [[xs s2]|] eqn:Hrest; [|discriminate H].
    injection H as _ <-.
    apply (IH s1 xs); [intros n Hn; apply Hrs; right; exact Hn| |exact Hrest].
    apply (handle_keys_within N fuel r s x s1); [|exact Hs|exact Hr].
    intros n ->. apply Hrs. left.
Qed.

Lemma keys_within_size N (m : gmap Z Z) :
  (∀ k, is_Some (m !! k) → 0 ≤ k ≤ N) → (size m ≤ Z.to_nat (N + 1))%nat.
Proof.
  intros Hm.
  rewrite <- (length_seqZ 0 (N + 1)).
  rewrite <- (size_list_to_set (C := gset Z) (seqZ 0 (N + 1)))
    by apply NoDup_seqZ.
  rewrite <- size_dom. apply subseteq_size.
  intros k Hk. apply elem_of_dom in Hk.
  apply elem_of_list_to_set, elem_of_seqZ. specialize (Hm k Hk). lia.
Qed.

(** X10. The cache is bounded by the largest index ever requested: when a
    fresh process has served requests whose indices are all at most [N], the
    cache holds at most [N + 1] entries (none, when [N] is negative). *)
Theorem cache_size_bounded_by_largest_index N fuel rs out s' :
  (∀ n, FibRequest n ∈ rs → n ≤ N) →
  serve fuel rs init_state = Some (out, s') →
  (size (cache s') ≤ Z.to_nat (N + 1))%nat.
Proof.
  intros Hrs H. apply keys_within_size.
  apply (serve_keys_within N fuel rs init_state out s' Hrs); [|exact H].
  intros k [x Hx]. simpl in Hx. rewrite lookup_empty in Hx. discriminate Hx.
Qed.

Lemma cache_size_bounded_by_largest_index_witness :
  (size (cache (store 2 1 (store 0 0 (miss (store 1 1 (miss (miss init_state)))))))
   ≤ Z.to_nat (2 + 1))%nat.
Proof.
  apply (cache_size_bounded_by_largest_index 2 3
           [FibRequest (-4); HealthRequest; FibRequest 2]
           [([("error", JStr "Please provide a non-negative integer")], 400);
            ([("status", JStr "healthy")], 200);
            ([("n", JInt 2); ("fib", JInt 1)], 200)]).
  - intros n Hn.
    apply elem_of_cons in Hn as [Hn|Hn]; [injection Hn as ->; lia|].
    apply elem_of_cons in Hn as [Hn|Hn]; [discriminate Hn|].
    apply elem_of_cons in Hn as [Hn|Hn]; [injection Hn as ->; lia|].
    apply elem_of_nil in Hn. destruct Hn.
  - vm_compute. reflexivity.
Defined.

(** * Properties of [fibfactory.py] *)

(** Runs a script as far as the answers of the SDK are known. *)
Ltac run_script :=
  unfold create_env, destroy_env, list_envs, env_stack, try_except, invoke,
    invoke_logged, emit, raise, mbind, prog_bind, mret, prog_ret;
  cbn [fst snd app fmap list_fmap].

(** Splits on the answers of the SDK that the goal depends on. *)
Ltac answers w :=
  repeat match goal with
  | |- context [create_or_select_stack w ?a ?b] =>
      destruct (create_or_select_stack w a b) as [[]|?] eqn:?
  | |- context [select_stack w ?a ?b] =>
      destruct (select_stack w a b) as [[]|?] eqn:?
  | |- context [set_config w ?a ?b ?c] =>
      destruct (set_config w a b c) as [[]|?] eqn:?
  | |- context [up w ?a] =>
      destruct (up w a) as [? [?|?]] eqn:?
  | |- context [destroy w ?a] =>
      destruct (destroy w a) as [? [[?|]|?]] eqn:?
  | |- context [remove_stack w ?a] =>
      destruct (remove_stack w a) as [[]|?] eqn:?
  | |- context [new_workspace w ?a ?b] =>
      destruct (new_workspace w a b) as [[]|?] eqn:?
  | |- context [list_stacks w] =>
      destruct (list_stacks w) as [?|?] eqn:?
  end;
  cbn [fst snd app fmap list_fmap].

(** Finds an effect in a trace that is written out. *)
Ltac in_trace :=
  solve
    [ apply list_elem_of_here
    | apply list_elem_of_further; in_trace
    | apply elem_of_app; left; in_trace
    | apply elem_of_app; right; in_trace ].

(** Takes apart the fact that an effect is in a trace that is written out. *)
Ltac split_trace H :=
  repeat match type of H with
  | _ ∈ [] => apply elem_of_nil in H; destruct H
  | _ ∈ _ :: _ => apply elem_of_cons in H as [H|H]
  | _ ∈ _ ++ _ => apply elem_of_app in H as [H|H]
  | _ ∈ _ <$> _ => apply list_elem_of_fmap in H as (? & H & ?)
  end.

Lemma env_stack_inj i j : env_stack i = env_stack j → i = j.
Proof. unfold env_stack. intros H. injection H as H. exact H. Qed.

(** X11. [create_env] deploys only a configured stack: [up] is called if and
    only if the stack was created or selected and both configuration values,
    [appName] and [containerPort], were set without error. *)
Theorem create_env_deploys_only_configured w env_id :
  Up (env_stack env_id) ∈ (create_env w env_id).1 ↔
  create_or_select_stack w (env_stack env_id) PROJECT_NAME = Ok tt ∧
  set_config w (env_stack env_id) "appName" ("fib-app-" +:+ env_id) = Ok tt ∧
  set_config w (env_stack env_id) "containerPort" "8080" = Ok tt.
Proof.
  run_script. answers w.
  all: try destruct (_ !! "app_runner_service_url"); cbn [fst snd app].
  all: split;
    [ intros H; try (repeat split; reflexivity);
      exfalso; split_trace H; discriminate H
    | intros (H1 & H2 & H3); try discriminate; in_trace ].
Qed.

(** Computes the last effect of a trace that is written out. *)
Ltac last_of_trace :=
  repeat first
    [ rewrite last_app_cons
    | rewrite last_cons_cons
    | rewrite app_comm_cons ];
  reflexivity.

(** X12. [create_env] always says how it ended.  When it returns, [up] gave
    an [app_runner_service_url] output and the last thing logged is that URL;
    when it raises, the last thing logged is the error it then re-raises. *)
Theorem create_env_logs_outcome w env_id :
  match (create_env w env_id).2 with
  | Ok _ =>
      ∃ outputs url,
        (up w (env_stack env_id)).2 = Ok outputs ∧
        outputs !! "app_runner_service_url" = Some url ∧
        last (create_env w env_id).1 = Some (LogInfo ("Service URL: " +:+ url))
  | Raise e =>
      last (create_env w env_id).1
        = Some (LogError ("Error creating stack: " +:+ message e))
  end.
Proof.
  run_script. answers w.
  all: try (destruct (_ !! "app_runner_service_url") eqn:Hurl; cbn [fst snd app]).
  all: try last_of_trace.
  eexists _, _. split; [reflexivity|]. split; [exact Hurl|]. last_of_trace.
Qed.

(** X13. A deployment without the [app_runner_service_url] output is turned
    into a failure after the fact: [up] has run, and [create_env] then raises
    the attribute error of [{}.value], logged like any other error. *)
Theorem create_env_missing_url w env_id outputs :
  create_or_select_stack w (env_stack env_id) PROJECT_NAME = Ok tt →
  set_config w (env_stack env_id) "appName" ("fib-app-" +:+ env_id) = Ok tt →
  set_config w (env_stack env_id) "containerPort" "8080" = Ok tt →
  (up w (env_stack env_id)).2 = Ok outputs →
  outputs !! "app_runner_service_url" = None →
  (create_env w env_id).2 = Raise attribute_error ∧
  Up (env_stack env_id) ∈ (create_env w env_id).1 ∧
  last (create_env w env_id).1
    = Some (LogError
              "Error creating stack: 'dict' object has no attribute 'value'").
Proof.
  revert outputs. run_script. intros outputs H1 H2 H3 H4 H5.
  rewrite H1, H2, H3. cbn [fst snd app].
  destruct (up w _) as [msgs r]. cbn [fst snd app] in *. subst r.
  rewrite H5. cbn [fst snd app].
  split; [reflexivity|]. split; [in_trace|last_of_trace].
Qed.

Lemma create_env_missing_url_witness :
  (create_env quiet_sdk "dev").2 = Raise attribute_error ∧
  Up (env_stack "dev") ∈ (create_env quiet_sdk "dev").1 ∧
  last (create_env quiet_sdk "dev").1
    = Some (LogError
              "Error creating stack: 'dict' object has no attribute 'value'").
Proof.
  apply (create_env_missing_url quiet_sdk "dev" ∅); reflexivity.
Defined.

(** X14. [destroy_env] is best effort: whatever the SDK answers it returns
    without raising, and it removes the stack from the workspace if and only
    if the stack was selected and its resources were destroyed without
    error. *)
Theorem destroy_env_is_best_effort w env_id :
  (destroy_env w env_id).2 = Ok tt ∧
  (RemoveStack (env_stack env_id) ∈ (destroy_env w env_id).1 ↔
   select_stack w (env_stack env_id) PROJECT_NAME = Ok tt ∧
   ∃ changes, (destroy w (env_stack env_id)).2 = Ok changes).
Proof.
  run_script. answers w.
  all: try match goal with
       | |- context [stack_not_found ?e] => destruct (stack_not_found e)
       end; cbn [fst snd app].
  all: split; [reflexivity|].
  all: split;
    [ intros H; try (split; [reflexivity|eexists; reflexivity]);
      exfalso; split_trace H; discriminate H
    | intros (H1 & c & H2); try discriminate; in_trace ].
Qed.

Lemma script_names_one_stack w env_id ev nm :
  ev ∈ (create_env w env_id).1 ∨ ev ∈ (destroy_env w env_id).1 →
  stack_of ev = Some nm → nm = env_stack env_id.
Proof.
  intros [H|H]; revert H; run_script; answers w.
  all: try (destruct (_ !! "app_runner_service_url"); cbn [fst snd app]).
  all: try match goal with
       | |- context [stack_not_found ?e] => destruct (stack_not_found e)
       end; cbn [fst snd app].
  all: intros H Hnm; split_trace H; subst ev; simpl in Hnm;
    first [discriminate Hnm | injection Hnm as <-; reflexivity].
Qed.

(** X15. Environments do not touch each other: no SDK call made by
    [create_env] or [destroy_env] for one environment id is made on the stack
    of a different id. *)
Theorem environments_are_isolated w i j ev :
  i ≠ j →
  ev ∈ (create_env w i).1 ∨ ev ∈ (destroy_env w i).1 →
  stack_of ev ≠ Some (env_stack j).
Proof.
  intros Hij Hev Hnm. apply Hij. symmetry. apply env_stack_inj.
  exact (script_names_one_stack w i ev _ Hev Hnm).
Qed.

Lemma environments_are_isolated_witness :
  stack_of (RemoveStack "fibfactory-dev") ≠ Some (env_stack "qa").
Proof.
  apply (environments_are_isolated happy_sdk "dev" "qa").
  - discriminate.
  - right. vm_compute. in_trace.
Defined.

(** ** Listing the environments *)

Lemma startswith_env_stack env_id : startswith_project (env_stack env_id) = true.
Proof. reflexivity. Qed.

Lemma existsb_elem_of {A} (f : A → bool) (l : list A) :
  existsb f l = true ↔ ∃ x, x ∈ l ∧ f x = true.
Proof.
  induction l as [|y l IH]; simpl.
  - split; [discriminate|]. intros (x & Hx & _). apply elem_of_nil in Hx.
    destruct Hx.
  - rewrite orb_true_iff, IH. split.
    + intros [Hy|(x & Hx & Hfx)]; [exists y|exists x];
        (split; [|assumption]); [left|right; exact Hx].
    + intros (x & Hx & Hfx). apply elem_of_cons in Hx as [->|Hx];
        [left; exact Hfx|right; eauto].
Qed.

(** The line for no environment is not the line of an environment. *)
Ltac not_a_listed_line :=
  match goal with
  | H : _ ∈ String.append _ <$> _ |- _ =>
      apply list_elem_of_fmap in H as (? & H & _); discriminate H
  end.

(** What [list_envs] does once it has the list of stacks. *)
Lemma list_envs_listed w stacks :
  new_workspace w PROJECT_NAME "python" = Ok tt →
  list_stacks w = Ok stacks →
  list_envs w =
    (NewWorkspace PROJECT_NAME "python" :: ListStacks
     :: PrintLine "Active environments:"
     :: (PrintLine <$> (String.append "- " <$> filter startswith_project stacks))
     ++ (if existsb startswith_project stacks then []
         else [PrintLine "No active environments found."]),
     Ok tt).
Proof.
  intros H1 H2. run_script. rewrite H1, H2. cbn [fst snd app].
  destruct (existsb startswith_project stacks); cbn [negb fst snd app];
    rewrite ?app_nil_r; reflexivity.
Qed.

(** X16. What [create_env] makes, [list_envs] shows: when the SDK lists the
    stack of an environment id among its stacks, [list_envs] prints a line
    for it and does not print that there are no active environments. *)
Theorem list_envs_shows_created w stacks env_id :
  new_workspace w PROJECT_NAME "python" = Ok tt →
  list_stacks w = Ok stacks →
  env_stack env_id ∈ stacks →
  PrintLine ("- " +:+ env_stack env_id) ∈ (list_envs w).1 ∧
  PrintLine "No active environments found." ∉ (list_envs w).1.
Proof.
  intros H1 H2 Hin. rewrite (list_envs_listed w stacks H1 H2). cbn [fst].
  assert (existsb startswith_project stacks = true) as ->.
  { apply existsb_elem_of. exists (env_stack env_id).
    split; [exact Hin|apply startswith_env_stack]. }
  split.
  - do 3 apply list_elem_of_further. rewrite app_nil_r.
    apply list_elem_of_fmap_2, list_elem_of_fmap_2, list_elem_of_filter.
    split; [rewrite startswith_env_stack; exact I|exact Hin].
  - intros H. split_trace H; try discriminate H.
    injection H as <-. not_a_listed_line.
Qed.

Lemma list_envs_shows_created_witness :
  PrintLine ("- " +:+ env_stack "qa") ∈ (list_envs happy_sdk).1 ∧
  PrintLine "No active environments found." ∉ (list_envs happy_sdk).1.
Proof.
  apply (list_envs_shows_created happy_sdk
           ["fibfactory-dev"; "other-prod"; "fibfactory-qa"] "qa");
    [reflexivity|reflexivity|].
  vm_compute. in_trace.
Defined.

(** X17. When the SDK gives [list_envs] the stacks, it prints that there
    are no active environments exactly when no stack name starts with the
    project name. *)
Theorem list_envs_reports_none w stacks :
  new_workspace w PROJECT_NAME "python" = Ok tt →
  list_stacks w = Ok stacks →
  PrintLine "No active environments found." ∈ (list_envs w).1 ↔
  ∀ name, name ∈ stacks → startswith_project name = false.
Proof.
  intros H1 H2. rewrite (list_envs_listed w stacks H1 H2). cbn [fst].
  destruct (existsb startswith_project stacks) eqn:Hex.
  - split.
    + intros H. exfalso. split_trace H; try discriminate H.
      injection H as <-. not_a_listed_line.
    + intros Hnone. apply existsb_elem_of in Hex as (x & Hx & Hfx).
      rewrite (Hnone x Hx) in Hfx. discriminate Hfx.
  - split.
    + intros _ name Hname.
      destruct (startswith_project name) eqn:Hs; [|reflexivity].
      assert (existsb startswith_project stacks = true) as Hex'
        by (apply existsb_elem_of; eauto).
      congruence.
    + intros _. in_trace.
Qed.

Lemma list_envs_reports_none_witness :
  PrintLine "No active environments found." ∈ (list_envs quiet_sdk).1 ↔
  ∀ name, name ∈ [] → startswith_project name = false.
Proof.
  apply (list_envs_reports_none quiet_sdk []); reflexivity.
Defined.

(** X18. [list_envs] never raises, and it prints if and only if the SDK gave
    it the stacks: when the workspace or the listing fails, the error is
    logged and nothing is printed. *)
Theorem list_envs_is_best_effort w :
  (list_envs w).2 = Ok tt ∧
  ((∃ line, PrintLine line ∈ (list_envs w).1) ↔
   new_workspace w PROJECT_NAME "python" = Ok tt ∧
   ∃ stacks, list_stacks w = Ok stacks).
Proof.
  destruct (new_workspace w PROJECT_NAME "python") as [[]|e1] eqn:H1.
  2:{ run_script. rewrite H1. cbn [fst snd app]. split; [reflexivity|]. split.
      - intros [line H]. split_trace H; discriminate H.
      - intros [H _]. discriminate H. }
  destruct (list_stacks w) as [stacks|e2] eqn:H2.
  2:{ run_script. rewrite H1, H2. cbn [fst snd app]. split; [reflexivity|]. split.
      - intros [line H]. split_trace H; discriminate H.
      - intros [_ [stacks H]]. discriminate H. }
  rewrite (list_envs_listed w stacks H1 H2). cbn [fst snd].
  split; [reflexivity|]. split.
  - intros _. split; [reflexivity|]. exists stacks. reflexivity.
  - intros _. exists "Active environments:". in_trace.
Qed.

(** ** The command line *)

(** X19. No environment is created or destroyed without an id: when
    [--env-id] is missing or empty, the [create] and [destroy] actions make no
    SDK call at all; they print one error line and end normally. *)
Theorem main_needs_env_id w act env_id :
  act ≠ ActList →
  env_id = None ∨ env_id = Some EmptyString →
  (main w act env_id).2 = Ok tt ∧
  (∃ line, (main w act env_id).1 = [PrintLine line]) ∧
  ∀ ev, ev ∈ (main w act env_id).1 → is_sdk_call ev = false.
Proof.
  intros Hact Hid.
  assert (no_env_id env_id = true) as Hno
    by (destruct Hid as [-> | ->]; reflexivity).
  destruct act; [| |congruence]; unfold main; rewrite Hno; cbn [emit fst snd].
  all: split; [reflexivity|]; split; [eexists; reflexivity|].
  all: intros ev Hev; split_trace Hev; subst ev; reflexivity.
Qed.

Lemma main_needs_env_id_witness :
  (main happy_sdk ActDestroy (Some EmptyString)).2 = Ok tt ∧
  (∃ line, (main happy_sdk ActDestroy (Some EmptyString)).1 = [PrintLine line]) ∧
  ∀ ev, ev ∈ (main happy_sdk ActDestroy (Some EmptyString)).1 →
        is_sdk_call ev = false.
Proof.
  apply (main_needs_env_id happy_sdk ActDestroy (Some EmptyString));
    [discriminate|right; reflexivity].
Defined.
